(** * combine_ts.py: discovery of TypeScript sources and their concatenation

    A shallow embedding of [src/combine_ts.py].  The script walks a directory
    tree with [os.walk], prunes the directories named in [SKIP_DIRS], keeps
    the entries whose name ends in [.ts] or [.tsx], sorts the resulting
    [pathlib.Path] objects and writes one delimited block per file to a
    single output file. *)

From Stdlib Require Import String Ascii.
From stdpp Require Import base list strings sorting gmap pretty.

Local Open Scope string_scope.
Local Open Scope list_scope.

(** ** Paths

    A [pathlib.Path] is represented by its [parts] tuple: the anchor ["/"]
    (when the path is absolute) followed by the component names.  The
    operations the script uses ([/], [<], [relative_to], [str]) are all
    defined by pathlib on that tuple. *)

Definition Path := list string.

(** [Path(dirpath) / filename] *)
Definition joinpath (p : Path) (name : string) : Path := p ++ [name].

(** [sep.join(names)] *)
Fixpoint join (sep : string) (names : list string) : string :=
  match names with
  | [] => ""
  | [n] => n
  | n :: rest => n +:+ sep +:+ join sep rest
  end.

(** [str(path)] for a POSIX path. *)
Definition str (p : Path) : string :=
  match p with
  | [] => "."
  | anchor :: tail =>
      if String.eqb anchor "/" then "/" +:+ join "/" tail else join "/" p
  end.

(** [PurePath.__lt__] compares the parts of both paths as Python compares
    sequences: the first position where they differ decides, and a proper
    prefix is smaller.  Strings compare by code point.  (Later versions of
    pathlib split the path string at the separators instead of taking
    [parts]; for paths below one root the order is the same.) *)
Fixpoint path_lt (p q : Path) : bool :=
  match p, q with
  | [], [] => false
  | [], _ :: _ => true
  | _ :: _, [] => false
  | x :: p', y :: q' => if String.eqb x y then path_lt p' q' else String.ltb x y
  end.

Definition path_le (p q : Path) : Prop := path_lt q p = false.

Global Instance path_le_dec : RelDecision path_le.
Proof. intros p q. unfold path_le. apply _. Defined.

(** [sorted(paths)]: the paths in ascending order with respect to [<].  Two
    paths that compare equal are the same path, so the result is the same
    for every sorting algorithm ([sorted_unique] below). *)
Definition sorted (l : list Path) : list Path := merge_sort path_le l.

(** [PurePath.relative_to]: strip the parts of [other]; [None] stands for the
    [ValueError] raised when [other] is not a prefix.  (pathlib also raises
    for an absolute path set against the path [.], which has no parts; the
    script resolves its root to an absolute path, and the properties that
    take any list of paths leave that case out by hypothesis.) *)
Fixpoint relative_to (p other : Path) : option Path :=
  match other, p with
  | [], _ => Some p
  | y :: other', x :: p' => if String.eqb x y then relative_to p' other' else None
  | _ :: _, [] => None
  end.

(** [s.endswith(suffix)] and its tuple form. *)
Definition endswith (s suffix : string) : bool :=
  let n := String.length s in
  let m := String.length suffix in
  (m <=? n)%nat && String.eqb (substring (n - m) m s) suffix.

Definition endswith_any (s : string) (suffixes : list string) : bool :=
  existsb (endswith s) suffixes.

(** ** The directory tree

    What [os.scandir] reports for an entry: a directory ([is_dir()] holds,
    possibly through a symbolic link, which [islink] records) with its own
    entries, or anything else (a regular file, a link to a file, a dangling
    link, a socket).  The order of [entries] is the order in which
    [os.scandir] lists them.  A directory that cannot be listed has no
    entries: [os.walk] swallows the error of [os.scandir] and yields nothing
    for it, as it does when it is started on something that is not a
    directory. *)

#[local] Set Warnings "-register-all".
Inductive node : Type :=
| File : node
| Dir (islink : bool) (entries : list (string * node)) : node.

Definition is_dir (n : node) : bool :=
  match n with Dir _ _ => true | File => false end.

Definition islink (n : node) : bool :=
  match n with Dir l _ => l | File => false end.

Definition scan_dirs (entries : list (string * node)) : list string :=
  (filter (λ e, is_dir e.2 = true) entries).*1.

Definition scan_nondirs (entries : list (string * node)) : list string :=
  (filter (λ e, is_dir e.2 = false) entries).*1.

(** ** [os.walk], top-down, [followlinks=False], [onerror=None]

    The generator yields [(dirpath, dirnames, filenames)] and, when resumed,
    descends into whatever names the caller left in the [dirnames] list it
    was handed.  The loop body of the caller is the [visit] argument: it
    receives the triple and the caller's state and returns the [dirnames]
    list as it stands after the body, with the new state. *)

Section Walk.
Context {S : Type}.
Variable visit : Path → list string → list string → S → list string * S.

Section Enter.
Variable dirname : string.
Variable descend : string → node → S.
Variable skip : S.

(** resolve [dirname] in the directory and walk into it *)
Fixpoint enter (entries : list (string * node)) : S :=
  match entries with
  | [] => skip
  | (name, child) :: rest =>
      if String.eqb name dirname then descend name child else enter rest
  end.
End Enter.

Fixpoint walk (top : Path) (n : node) (s : S) {struct n} : S :=
  match n with
  | File => s
  | Dir _ entries =>
      let '(dirs, s1) := visit top (scan_dirs entries) (scan_nondirs entries) s in
      fold_left
        (λ s dirname,
           enter dirname
             (λ name child,
                if islink child then s else walk (joinpath top name) child s)
             s entries)
        dirs s1
  end.
End Walk.

(** ** Discovery *)

Definition SKIP_DIRS : gset string :=
  {[ "node_modules"; "dist"; "build"; ".next"; "out"; "coverage";
     ".turbo"; ".cache"; "__pycache__"; ".git" ]}.

Definition find_ts_visit (dirpath : Path) (dirnames filenames : list string)
    (ts_files : list Path) : list string * list Path :=
  (filter (λ d, d ∉ SKIP_DIRS) dirnames,
   fold_left
     (λ acc filename,
        if endswith_any filename [".ts"; ".tsx"]
        then acc ++ [joinpath dirpath filename] else acc)
     filenames ts_files).

Definition find_ts_files (root_path : Path) (fs : node) : list Path :=
  sorted (walk find_ts_visit root_path fs []).

(** ** Effects

    The script prints to standard output and writes files.  [disk] maps the
    path of a file to the chunks written to it, in order (the content of the
    file is their concatenation); opening the output file and writing to it
    are taken to succeed.  Reading a source file goes through an oracle that
    gives the outcome of the read at the time it is made, so that a read can
    fail whatever discovery saw earlier. *)

Inductive exn : Type := Exception (description : string).

Definition description (e : exn) : string :=
  match e with Exception d => d end.

Record world : Type := World {
  stdout : list string;
  disk : gmap Path (list string);
}.

Definition file_content (w : world) (p : Path) : option string :=
  String.concat "" <$> disk w !! p.

Definition M (A : Type) : Type := world → (exn + A) * world.

Global Instance M_ret : MRet M := λ A x w, (inr x, w).
Global Instance M_bind : MBind M := λ A B f m w,
  match m w with
  | (inl e, w') => (inl e, w')
  | (inr x, w') => f x w'
  end.

Definition raise {A} (e : exn) : M A := λ w, (inl e, w).

(** [try: body except Exception as e: handler(e)] *)
Definition try_except {A} (body : M A) (handler : exn → M A) : M A := λ w,
  match body w with
  | (inl e, w') => handler e w'
  | (inr x, w') => (inr x, w')
  end.

(** [for x in xs: body(x)] *)
Fixpoint for_each {A} (xs : list A) (body : A → M unit) : M unit :=
  match xs with
  | [] => mret ()
  | x :: rest => body x ;; for_each rest body
  end.

Definition print (line : string) : M unit := λ w,
  (inr (), World (stdout w ++ [line]) (disk w)).

(** [open(path, 'w')]: create the file or truncate it. *)
Definition open_w (path : Path) : M unit := λ w,
  (inr (), World (stdout w) (<[path := []]> (disk w))).

(** [out.write(s)] on the handle opened for [path]. *)
Definition write (path : Path) (s : string) : M unit := λ w,
  (inr (), World (stdout w) (<[path := default [] (disk w !! path) ++ [s]]> (disk w))).

Definition nl : string := String "010" "".

(** [s * n] *)
Fixpoint str_mul (s : string) (n : nat) : string :=
  match n with
  | O => ""
  | Datatypes.S n' => s +:+ str_mul s n'
  end.

(** ** Combiner *)

Section Combiner.
(** [Path.read_text(encoding='utf-8')]: the decoded text, or the exception
    raised (file vanished, permission denied, undecodable bytes). *)
Variable read_text_result : Path → exn + string.

Definition read_text (p : Path) : M string := λ w, (read_text_result p, w).

Definition relative_to_or_raise (p other : Path) : M Path :=
  match relative_to p other with
  | Some r => mret r
  | None =>
      raise (Exception ("'" +:+ str p +:+ "' is not in the subpath of '"
                        +:+ str other +:+ "'"))
  end.

Definition combine_files (ts_files : list Path) (root_path output_path : Path)
    : M unit :=
  open_w output_path ;;
  for_each ts_files (λ ts_file,
    relative_path ← relative_to_or_raise ts_file root_path;
    let separator := str_mul "=" 80 in
    write output_path (nl +:+ separator +:+ nl) ;;
    write output_path ("// FILE: " +:+ str relative_path +:+ nl) ;;
    write output_path (separator +:+ nl +:+ nl) ;;
    try_except
      (content ← read_text ts_file;
       write output_path content ;;
       write output_path nl)
      (λ e, write output_path ("// ERROR reading file: " +:+ description e +:+ nl))).

(** ** Entry point *)

Record arguments : Type := Args { path : string; output : string }.

(** [Path(s).resolve()], [Path.cwd() / s], and what the file system holds
    at a path ([None] when nothing exists there). *)
Variable resolve : string → Path.
Variable from_cwd : string → Path.
Variable at_path : Path → option node.

Definition main (args : arguments) : M Z :=
  let root_path := resolve (path args) in
  let output_path := from_cwd (output args) in
  match at_path root_path with
  | None =>
      print ("Error: Path '" +:+ str root_path +:+ "' does not exist") ;;
      mret 1%Z
  | Some fs =>
      print ("Searching for TypeScript files in: " +:+ str root_path) ;;
      let ts_files := find_ts_files root_path fs in
      match ts_files with
      | [] =>
          print "No TypeScript files found" ;;
          mret 0%Z
      | _ :: _ =>
          print ("Found " +:+ pretty (length ts_files) +:+ " TypeScript files") ;;
          combine_files ts_files root_path output_path ;;
          print ("Combined into: " +:+ str output_path) ;;
          mret 0%Z
      end
  end.

(** [exit(main())]: the status of the process; an exception that reaches
    the top level ends it with status 1. *)
Definition exit_status (args : arguments) (w : world) : Z * world :=
  match main args w with
  | (inr code, w') => (code, w')
  | (inl _, w') => (1%Z, w')
  end.
End Combiner.

(** ** Well-formed listings and where files sit in a tree

    A name reported by [os.scandir] is not empty and holds no separator, and
    a directory has no two entries of the same name. *)

Fixpoint has_sep (s : string) : bool :=
  match s with
  | EmptyString => false
  | String c s' => Ascii.eqb c "/" || has_sep s'
  end.

Definition valid_name (s : string) : bool :=
  negb (String.eqb s "") && negb (has_sep s).

Fixpoint wf_tree (n : node) : bool :=
  match n with
  | File => true
  | Dir _ entries =>
      bool_decide (NoDup entries.*1)
      && forallb (λ e, valid_name e.1 && wf_tree e.2) entries
  end.

(** [under n ds name]: below the directory [n], the directories named [ds]
    lead to a non-directory entry called [name]. *)
Inductive under : node → list string → string → Prop :=
| under_here l es name :
    (name, File) ∈ es → under (Dir l es) [] name
| under_down l es d c ds name :
    (d, c) ∈ es → under c ds name → under (Dir l es) (d :: ds) name.

(** [visited n ds name]: the same, where moreover no directory on the way is
    named in [SKIP_DIRS] or is a symbolic link. *)
Inductive visited : node → list string → string → Prop :=
| visited_here l es name :
    (name, File) ∈ es → visited (Dir l es) [] name
| visited_down l es d es' ds name :
    (d, Dir false es') ∈ es → d ∉ SKIP_DIRS →
    visited (Dir false es') ds name → visited (Dir l es) (d :: ds) name.

(** The name ends in [.ts] or in [.tsx], letter for letter. *)
Definition ts_name (name : string) : Prop :=
  ∃ stem, name = stem +:+ ".ts" ∨ name = stem +:+ ".tsx".

(** Two listings of one file system: the same entries in every directory,
    reported in a possibly different order. *)
Inductive same_tree : node → node → Prop :=
| same_File : same_tree File File
| same_Dir l es1 es2 es :
    Forall2 (λ e1 e2, e1.1 = e2.1 ∧ same_tree e1.2 e2.2) es1 es →
    es ≡ₚ es2 →
    same_tree (Dir l es1) (Dir l es2).

(** Two trees that differ at most below directories that discovery does
    not enter: in every directory the entries bear the same names and are of
    the same kind, in the same order, and the subdirectories that are neither
    named in [SKIP_DIRS] nor symbolic links are related in turn. *)
Definition visible_entry (R : node → node → Prop) (e e' : string * node) : Prop :=
  e.1 = e'.1 ∧ is_dir e.2 = is_dir e'.2 ∧ islink e.2 = islink e'.2
  ∧ (e.1 ∉ SKIP_DIRS → islink e.2 = false → R e.2 e'.2).

Inductive same_visible : node → node → Prop :=
| visible_File : same_visible File File
| visible_Dir l l' es es' :
    Forall2 (visible_entry same_visible) es es' →
    same_visible (Dir l es) (Dir l' es').

(** The order of sequences of components: the first component that differs
    decides, and a proper prefix comes first. *)
Inductive parts_lex : Path → Path → Prop :=
| lex_prefix y q : parts_lex [] (y :: q)
| lex_head x y p q : String.ltb x y = true → parts_lex (x :: p) (y :: q)
| lex_tail x p q : parts_lex p q → parts_lex (x :: p) (x :: q).

(** The order of the full path strings. *)
Definition str_le (p q : Path) : Prop := String.leb (str p) (str q) = true.

(** ** The format of the combined file, as the specification words it *)

Definition line80 : string :=
  "================================================================================".

(** A newline, a line of 80 [=], the [// FILE:] line, a second line of 80
    [=], a blank line, then the body. *)
Definition block (relative_path body : string) : string :=
  nl +:+ line80 +:+ nl +:+ "// FILE: " +:+ relative_path +:+ nl
     +:+ line80 +:+ nl +:+ nl +:+ body.

Definition error_line (e : exn) : string :=
  "// ERROR reading file: " +:+ description e +:+ nl.

(** The body of a block: the text and a newline, or the error line. *)
Definition body_of (r : exn + string) : string :=
  match r with
  | inr content => content +:+ nl
  | inl e => error_line e
  end.

Definition block_of (read : Path → exn + string) (root_path ts_file : Path)
    : string :=
  match relative_to ts_file root_path with
  | Some relative_path => block (str relative_path) (body_of (read ts_file))
  | None => ""
  end.

(** The string begins with the path separator. *)
Definition leading_sep (s : string) : bool :=
  match s with
  | String c _ => Ascii.eqb c "/"
  | EmptyString => false
  end.



(** The three header chunks of a block. *)
Definition header_chunks (root_path ts_file : Path) : list string :=
  match relative_to ts_file root_path with
  | Some relative_path =>
      [nl +:+ line80 +:+ nl;
       "// FILE: " +:+ str relative_path +:+ nl;
       line80 +:+ nl +:+ nl]
  | None => []
  end.

(** ** What the walk does in one directory

    The names kept by the filters of [find_ts_files], the entry a name
    resolves to, and the paths collected below one subdirectory. *)

Definition matching (filenames : list string) : list string :=
  filter (λ f, endswith_any f [".ts"; ".tsx"] = true) filenames.

Definition pruned (es : list (string * node)) : list string :=
  filter (λ d, d ∉ SKIP_DIRS) (scan_dirs es).

(** the first entry of the directory that bears the name *)
Fixpoint lookup_entry (d : string) (es : list (string * node)) : option node :=
  match es with
  | [] => None
  | (name, child) :: rest =>
      if String.eqb name d then Some child else lookup_entry d rest
  end.

Definition sub_found (top : Path) (es : list (string * node)) (d : string)
    : list Path :=
  match lookup_entry d es with
  | Some child =>
      if islink child then [] else walk find_ts_visit (joinpath top d) child []
  | None => []
  end.

(** The [write] calls that the loop body of [combine_files] makes for one
    file. *)
Definition file_chunks (read : Path → exn + string) (root_path ts_file : Path)
    : list string :=
  match relative_to ts_file root_path with
  | Some relative_path =>
      [nl +:+ str_mul "=" 80 +:+ nl;
       "// FILE: " +:+ str relative_path +:+ nl;
       str_mul "=" 80 +:+ nl +:+ nl]
      ++ match read ts_file with
         | inr content => [content; nl]
         | inl e => ["// ERROR reading file: " +:+ description e +:+ nl]
         end
  | None => []
  end.

(** ** Sample file systems *)

Definition sample_root : Path := ["/"; "r"].
Definition sample_out : Path := ["/"; "w"; "combined.ts"].

(** [src/app.ts], [src/util.tsx], [node_modules/x/y.ts], [dist/out.ts] *)
Definition tree_scenario : node :=
  Dir false
    [("src", Dir false [("util.tsx", File); ("app.ts", File)]);
     ("node_modules", Dir false [("x", Dir false [("y.ts", File)])]);
     ("dist", Dir false [("out.ts", File)])].

(** the same directories, listed in another order *)
Definition tree_scenario_reordered : node :=
  Dir false
    [("dist", Dir false [("out.ts", File)]);
     ("src", Dir false [("app.ts", File); ("util.tsx", File)]);
     ("node_modules", Dir false [("x", Dir false [("y.ts", File)])])].

(** [a.ts], [node_modules/x.ts] and [lnk/y.ts], where [lnk] is a symbolic
    link to a directory *)
Definition tree_pruned : node :=
  Dir false
    [("a.ts", File);
     ("node_modules", Dir false [("x.ts", File)]);
     ("lnk", Dir true [("y.ts", File)])].

(** [a/x.ts] and [a-b/x.ts] *)
Definition tree_dash : node :=
  Dir false
    [("a", Dir false [("x.ts", File)]);
     ("a-b", Dir false [("x.ts", File)])].

(** [a.ts] alone *)
Definition tree_flat : node := Dir false [("a.ts", File)].

(** [README.md] and [build/gen.ts] *)
Definition tree_no_ts : node :=
  Dir false [("README.md", File); ("build", Dir false [("gen.ts", File)])].

Definition read_ok (p : Path) : exn + string := inr "export {};".

Definition read_denied (p : Path) : exn + string :=
  inl (Exception ("[Errno 13] Permission denied: '" +:+ str p +:+ "'")).

(** every file is readable but [src/app.ts] *)
Definition undecodable : exn :=
  Exception "'utf-8' codec can't decode byte 0xff in position 0".

Definition read_mixed (p : Path) : exn + string :=
  if decide (p = sample_root ++ ["src"; "app.ts"])
  then inl undecodable
  else inr "export {};".

Definition sample_resolve (s : string) : Path := sample_root.
Definition sample_from_cwd (s : string) : Path := ["/"; "w"; s].
Definition sample_args : arguments := Args "." "combined.ts".

(** a run that starts with an older [combined.ts] on the disk *)
Definition sample_world : world := World [] {[ sample_out := ["old"] ]}.

(** [tree_scenario] with other contents below [node_modules] and [dist] *)
Definition tree_scenario_rebuilt : node :=
  Dir false
    [("src", Dir false [("util.tsx", File); ("app.ts", File)]);
     ("node_modules", Dir false [("z.ts", File); ("y", Dir false [])]);
     ("dist", Dir false [])].



(** * Properties *)

(** ** The functions on small inputs *)

Example endswith_ts : endswith "app.ts" ".ts" = true.
Proof. reflexivity. Qed.

Example endswith_d_ts : endswith_any "types.d.ts" [".ts"; ".tsx"] = true.
Proof. reflexivity. Qed.

Example endswith_upper : endswith_any "APP.TS" [".ts"; ".tsx"] = false.
Proof. reflexivity. Qed.

Example endswith_short : endswith_any "ts" [".ts"; ".tsx"] = false.
Proof. reflexivity. Qed.

Example endswith_js : endswith_any "app.tsx.js" [".ts"; ".tsx"] = false.
Proof. reflexivity. Qed.

Example path_lt_prefix : path_lt ["/"; "r"] ["/"; "r"; "a.ts"] = true.
Proof. reflexivity. Qed.

Example path_lt_component :
  path_lt ["/"; "r"; "a"; "x.ts"] ["/"; "r"; "a-b"; "x.ts"] = true.
Proof. reflexivity. Qed.

Example str_absolute : str ["/"; "r"; "src"; "app.ts"] = "/r/src/app.ts".
Proof. reflexivity. Qed.

Example str_relative : str ["src"; "app.ts"] = "src/app.ts".
Proof. reflexivity. Qed.

Example relative_to_below :
  relative_to ["/"; "r"; "src"; "app.ts"] ["/"; "r"] = Some ["src"; "app.ts"].
Proof. reflexivity. Qed.

Example relative_to_elsewhere :
  relative_to ["/"; "q"; "app.ts"] ["/"; "r"] = None.
Proof. reflexivity. Qed.

(** the scenario of the specification *)
Example find_ts_files_scenario :
  find_ts_files sample_root tree_scenario
  = [sample_root ++ ["src"; "app.ts"]; sample_root ++ ["src"; "util.tsx"]].
Proof. vm_compute. reflexivity. Qed.

Example find_ts_files_scenario_reordered :
  find_ts_files sample_root tree_scenario_reordered
  = [sample_root ++ ["src"; "app.ts"]; sample_root ++ ["src"; "util.tsx"]].
Proof. vm_compute. reflexivity. Qed.

Example find_ts_files_on_a_file : find_ts_files sample_root File = [].
Proof. reflexivity. Qed.

Example combine_files_scenario :
  file_content
    (combine_files read_mixed (find_ts_files sample_root tree_scenario)
       sample_root sample_out sample_world).2 sample_out
  = Some (block "src/app.ts"
            ("// ERROR reading file: " +:+ description undecodable +:+ nl)
          +:+ block "src/util.tsx" ("export {};" +:+ nl)).
Proof. vm_compute. reflexivity. Qed.

Example main_scenario :
  (exit_status read_ok sample_resolve sample_from_cwd (λ _, Some tree_scenario)
     sample_args sample_world).1 = 0%Z
  ∧ stdout (exit_status read_ok sample_resolve sample_from_cwd
              (λ _, Some tree_scenario) sample_args sample_world).2
    = ["Searching for TypeScript files in: /r";
       "Found 2 TypeScript files";
       "Combined into: /w/combined.ts"].
Proof. split; vm_compute; reflexivity. Qed.

(** ** The order on paths *)

Section StringOrder.
Implicit Types x y z : string.

Lemma ltb_leb x y : String.ltb x y = negb (String.leb y x).
Proof.
  unfold String.ltb, String.leb. rewrite (String.compare_antisym x y).
  by destruct (String.compare y x).
Qed.

Lemma ltb_irrefl x : String.ltb x x = false.
Proof.
  rewrite ltb_leb. apply negb_false_iff, Is_true_true.
  change (String.le x x). reflexivity.
Qed.

Lemma ltb_lt x y : String.ltb x y = true ↔ ¬ String.le y x.
Proof.
  rewrite ltb_leb, negb_true_iff. unfold String.le.
  destruct (String.leb y x); simpl; naive_solver.
Qed.

Lemma ltb_trans x y z :
  String.ltb x y = true → String.ltb y z = true → String.ltb x z = true.
Proof.
  rewrite !ltb_lt. intros Hxy Hyz Hzx.
  destruct (total String.le x y) as [Hle|Hle]; [|done].
  apply Hyz. by trans x.
Qed.

Lemma ltb_asym x y : String.ltb x y = true → String.ltb y x = false.
Proof.
  intros Hxy. destruct (String.ltb y x) eqn:Hyx; [|done].
  pose proof (ltb_trans _ _ _ Hxy Hyx) as Hxx. by rewrite ltb_irrefl in Hxx.
Qed.

Lemma ltb_connex x y : x ≠ y → String.ltb x y = false → String.ltb y x = true.
Proof.
  intros Hne Hxy. apply ltb_lt. intros Hle. apply Hne.
  apply (anti_symm String.le); [done|].
  destruct (total String.le x y) as [?|Hyx]; [|done].
  rewrite ltb_leb, negb_false_iff in Hxy. by apply Is_true_true.
Qed.
End StringOrder.

Section PathOrder.
Implicit Types p q r : Path.

Lemma path_lt_irrefl p : path_lt p p = false.
Proof. induction p as [|x p IH]; simpl; [done|]. by rewrite String.eqb_refl. Qed.

Lemma path_lt_trans p q r :
  path_lt p q = true → path_lt q r = true → path_lt p r = true.
Proof.
  revert q r. induction p as [|x p IH]; intros [|y q] [|z r]; simpl; try done.
  destruct (String.eqb_spec x y) as [->|Hxy].
  - destruct (String.eqb y z); [apply IH|done].
  - destruct (String.eqb_spec y z) as [->|Hyz].
    + rewrite (proj2 (String.eqb_neq _ _) Hxy). done.
    + intros H1 H2. pose proof (ltb_trans _ _ _ H1 H2) as H3.
      destruct (String.eqb_spec x z) as [->|_]; [|done].
      by rewrite ltb_irrefl in H3.
Qed.

Lemma path_lt_asym p q : path_lt p q = true → path_lt q p = false.
Proof.
  intros Hpq. destruct (path_lt q p) eqn:Hqp; [|done].
  pose proof (path_lt_trans _ _ _ Hpq Hqp) as Hpp.
  by rewrite path_lt_irrefl in Hpp.
Qed.

Lemma path_lt_connex p q : p ≠ q → path_lt p q = false → path_lt q p = true.
Proof.
  revert q. induction p as [|x p IH]; intros [|y q]; simpl; try done.
  destruct (String.eqb_spec x y) as [->|Hxy].
  - rewrite String.eqb_refl. intros Hne. apply IH. congruence.
  - rewrite (proj2 (String.eqb_neq y x)) by congruence.
    intros _. by apply ltb_connex.
Qed.

Global Instance path_le_total : Total path_le.
Proof.
  intros p q. unfold path_le. destruct (path_lt q p) eqn:Hqp; [|by left].
  right. by apply path_lt_asym.
Qed.

Global Instance path_le_antisym : AntiSymm (=) path_le.
Proof.
  intros p q Hpq Hqp. unfold path_le in *.
  destruct (decide (p = q)) as [|Hne]; [done|].
  pose proof (path_lt_connex _ _ Hne Hqp). congruence.
Qed.

Global Instance path_le_trans : Transitive path_le.
Proof.
  intros p q r Hpq Hqr. unfold path_le in *.
  destruct (path_lt r p) eqn:Hrp; [|done].
  destruct (decide (p = q)) as [->|Hne]; [congruence|].
  pose proof (path_lt_connex q p ltac:(congruence) Hpq) as Hlt.
  pose proof (path_lt_trans _ _ _ Hrp Hlt). congruence.
Qed.

Global Instance path_le_refl : Reflexive path_le.
Proof. intros p. apply path_lt_irrefl. Qed.

Lemma path_le_ne_lt p q : path_le p q → p ≠ q → path_lt p q = true.
Proof. intros Hle Hne. apply path_lt_connex; [congruence|done]. Qed.
End PathOrder.

Lemma sorted_Permutation l : sorted l ≡ₚ l.
Proof. apply merge_sort_Permutation. Qed.

Lemma elem_of_sorted p l : p ∈ sorted l ↔ p ∈ l.
Proof. by rewrite sorted_Permutation. Qed.

Lemma sorted_StronglySorted l : StronglySorted path_le (sorted l).
Proof. apply StronglySorted_merge_sort; apply _. Qed.

(** Sorting forgets the order in which the paths were collected. *)
Lemma sorted_order_irrelevant l1 l2 : l1 ≡ₚ l2 → sorted l1 = sorted l2.
Proof.
  intros Hperm. apply (Sorted_unique path_le).
  - apply Sorted_merge_sort, _.
  - apply Sorted_merge_sort, _.
  - by rewrite !sorted_Permutation.
Qed.

(** Any list that holds the same paths in ascending order is the sorted
    list: the result does not depend on the sorting algorithm. *)
Lemma sorted_unique l k : k ≡ₚ l → Sorted path_le k → k = sorted l.
Proof.
  intros Hperm Hk. apply (Sorted_unique path_le); [done| |].
  - apply Sorted_merge_sort, _.
  - by rewrite sorted_Permutation.
Qed.

Lemma sorted_NoDup l : NoDup l → NoDup (sorted l).
Proof. by rewrite sorted_Permutation. Qed.

(** Without duplicates, the sorted list is strictly increasing. *)
Lemma sorted_strict l :
  NoDup l → StronglySorted (λ p q, path_lt p q = true) (sorted l).
Proof.
  intros Hnd%sorted_NoDup. pose proof (sorted_StronglySorted l) as Hs.
  induction Hs as [|p k Hk IH Hall]; [constructor|].
  apply NoDup_cons in Hnd as [Hp Hnd]. constructor; [by apply IH|].
  apply Forall_forall. intros q Hq.
  apply path_le_ne_lt; [by eapply Forall_forall in Hall|]. by intros ->.
Qed.

(** ** Discovery: what the walk collects *)

Section NodeInd.
Variable P : node → Prop.
Hypothesis P_File : P File.
Hypothesis P_Dir : ∀ l es, Forall (λ e, P e.2) es → P (Dir l es).

Lemma node_ind' (n : node) : P n.
Proof.
  revert n. fix IH 1. intros [|l es].
  - apply P_File.
  - apply P_Dir. induction es as [|[name child] es IHes]; constructor.
    + apply IH.
    + apply IHes.
Qed.
End NodeInd.

Lemma fold_left_append {A B} (f : list A → B → list A) (g : B → list A) xs :
  (∀ s x, x ∈ xs → f s x = s ++ g x) →
  ∀ s, fold_left f xs s = s ++ (xs ≫= g).
Proof.
  induction xs as [|x xs IH]; intros Hf s; simpl.
  - by rewrite app_nil_r.
  - rewrite IH by (intros; apply Hf; by right).
    rewrite Hf by left. by rewrite (assoc_L (++)).
Qed.

Lemma find_ts_visit_files dirpath filenames ts_files :
  fold_left
    (λ acc filename,
       if endswith_any filename [".ts"; ".tsx"]
       then acc ++ [joinpath dirpath filename] else acc)
    filenames ts_files
  = ts_files ++ (joinpath dirpath <$> matching filenames).
Proof.
  revert ts_files. unfold matching.
  induction filenames as [|f fs IH]; intros acc; cbn [fold_left].
  - by rewrite app_nil_r.
  - rewrite IH, filter_cons.
    destruct (endswith_any f [".ts"; ".tsx"]) eqn:Hf.
    + rewrite decide_True by done. by rewrite <-(assoc_L (++)).
    + rewrite decide_False by done. done.
Qed.

Lemma enter_acc top es d s :
  Forall (λ e, ∀ top acc,
    walk find_ts_visit top e.2 acc = acc ++ walk find_ts_visit top e.2 []) es →
  enter d
    (λ name child,
       if islink child then s else walk find_ts_visit (joinpath top name) child s)
    s es
  = s ++ sub_found top es d.
Proof.
  unfold sub_found. induction 1 as [|[name child] es IHc _ IH]; simpl.
  - by rewrite app_nil_r.
  - destruct (String.eqb_spec name d) as [->|_]; [|done].
    destruct (islink child); [by rewrite app_nil_r|]. apply IHc.
Qed.

Lemma walk_acc n : ∀ top acc,
  walk find_ts_visit top n acc = acc ++ walk find_ts_visit top n [].
Proof.
  induction n as [|l es IH] using node_ind'; intros top acc; simpl.
  - by rewrite app_nil_r.
  - rewrite !find_ts_visit_files.
    rewrite !(fold_left_append _ (sub_found top es))
      by (intros; by apply enter_acc).
    by rewrite app_nil_l, (assoc_L (++)).
Qed.

Lemma walk_File top acc : walk find_ts_visit top File acc = acc.
Proof. done. Qed.

Lemma walk_Dir top l es :
  walk find_ts_visit top (Dir l es) []
  = (joinpath top <$> matching (scan_nondirs es))
    ++ (pruned es ≫= sub_found top es).
Proof.
  simpl. rewrite find_ts_visit_files, app_nil_l.
  apply fold_left_append. intros s d _. apply enter_acc.
  apply Forall_forall. intros e _ top' acc. apply walk_acc.
Qed.

(** *** The listing of one directory *)

Lemma elem_of_scan_nondirs name es :
  name ∈ scan_nondirs es ↔ (name, File) ∈ es.
Proof.
  unfold scan_nondirs. rewrite list_elem_of_fmap. split.
  - intros ([n c] & -> & [Hc He]%list_elem_of_filter). simpl in *.
    by destruct c.
  - intros He. exists (name, File). split; [done|].
    by apply list_elem_of_filter.
Qed.

Lemma elem_of_scan_dirs d es :
  d ∈ scan_dirs es ↔ ∃ l es', (d, Dir l es') ∈ es.
Proof.
  unfold scan_dirs. rewrite list_elem_of_fmap. split.
  - intros ([n c] & -> & [Hc He]%list_elem_of_filter). simpl in *.
    destruct c as [|l es']; [done|]. by exists l, es'.
  - intros (l & es' & He). exists (d, Dir l es'). split; [done|].
    by apply list_elem_of_filter.
Qed.

Lemma scan_nondirs_NoDup es : NoDup es.*1 → NoDup (scan_nondirs es).
Proof.
  intros Hnd. eapply sublist_NoDup; [exact Hnd|].
  unfold scan_nondirs. apply fmap_sublist, sublist_filter.
Qed.

Lemma scan_dirs_NoDup es : NoDup es.*1 → NoDup (scan_dirs es).
Proof.
  intros Hnd. eapply sublist_NoDup; [exact Hnd|].
  unfold scan_dirs. apply fmap_sublist, sublist_filter.
Qed.

Lemma lookup_entry_elem d es c : lookup_entry d es = Some c → (d, c) ∈ es.
Proof.
  induction es as [|[name child] es IH]; simpl; [done|].
  destruct (String.eqb_spec name d) as [->|_].
  - intros [= ->]. by left.
  - intros ?. right. by apply IH.
Qed.

Lemma lookup_entry_unique d es c :
  NoDup es.*1 → (d, c) ∈ es → lookup_entry d es = Some c.
Proof.
  induction es as [|[name child] es IH]; simpl.
  - intros _ []%elem_of_nil.
  - intros [Hname Hnd]%NoDup_cons [[= -> ->]|He]%elem_of_cons.
    + by rewrite String.eqb_refl.
    + destruct (String.eqb_spec name d) as [->|_]; [|by apply IH].
      destruct Hname. apply list_elem_of_fmap. by exists (d, c).
Qed.

Lemma wf_tree_Dir l es :
  wf_tree (Dir l es) = true →
  NoDup es.*1 ∧
  ∀ name c, (name, c) ∈ es → valid_name name = true ∧ wf_tree c = true.
Proof.
  simpl. intros [Hnd Hall]%andb_true_iff. split.
  - by apply bool_decide_eq_true in Hnd.
  - intros name c He. rewrite forallb_forall in Hall.
    apply list_elem_of_In, Hall, andb_true_iff in He. done.
Qed.

(** *** Every collected path is a visited file with a matching name *)

Lemma walk_sound n : ∀ top p,
  p ∈ walk find_ts_visit top n [] →
  ∃ ds name, p = top ++ ds ++ [name] ∧ visited n ds name
             ∧ endswith_any name [".ts"; ".tsx"] = true.
Proof.
  induction n as [|l es IH] using node_ind'; intros top p.
  - rewrite walk_File. intros []%elem_of_nil.
  - rewrite walk_Dir, elem_of_app. intros [Hown|Hsub].
    + apply list_elem_of_fmap in Hown as (name & -> & Hname).
      apply list_elem_of_filter in Hname as [Hts Hname].
      exists [], name. split_and!; [done| |done].
      constructor. by apply elem_of_scan_nondirs.
    + apply list_elem_of_bind in Hsub as (d & Hp & Hd).
      apply list_elem_of_filter in Hd as [Hskip _].
      unfold sub_found in Hp.
      destruct (lookup_entry d es) as [child|] eqn:Hlook;
        [|by apply elem_of_nil in Hp].
      apply lookup_entry_elem in Hlook.
      destruct (islink child) eqn:Hlink; [by apply elem_of_nil in Hp|].
      rewrite Forall_forall in IH.
      apply (IH _ Hlook) in Hp as (ds & name & -> & Hv & Hts). simpl in Hv.
      exists (d :: ds), name. split_and!; [|  |done].
      * unfold joinpath. by rewrite <-(assoc_L (++)).
      * destruct child as [|l' es']; [inversion Hv|]. simpl in Hlink. subst l'.
        by eapply visited_down.
Qed.

(** *** Every visited file with a matching name is collected *)

Lemma walk_complete n ds name :
  visited n ds name → wf_tree n = true →
  endswith_any name [".ts"; ".tsx"] = true →
  ∀ top, top ++ ds ++ [name] ∈ walk find_ts_visit top n [].
Proof.
  induction 1 as [l es name He|l es d es' ds name He Hskip Hv IH];
    intros [Hnd Hwf]%wf_tree_Dir Hts top; rewrite walk_Dir, elem_of_app.
  - left. apply list_elem_of_fmap. exists name. split; [done|].
    apply list_elem_of_filter. split; [done|]. by apply elem_of_scan_nondirs.
  - right. apply list_elem_of_bind. exists d. split.
    + unfold sub_found. rewrite (lookup_entry_unique _ _ _ Hnd He). simpl.
      specialize (IH (proj2 (Hwf _ _ He)) Hts (joinpath top d)).
      unfold joinpath in *. by rewrite <-(assoc_L (++)) in IH.
    + apply list_elem_of_filter. split; [done|].
      apply elem_of_scan_dirs. eauto.
Qed.

Lemma wf_tree_Dir_intro l es :
  NoDup es.*1 →
  (∀ name c, (name, c) ∈ es → valid_name name = true ∧ wf_tree c = true) →
  wf_tree (Dir l es) = true.
Proof.
  intros Hnd Hall. simpl. apply andb_true_iff. split.
  - by apply bool_decide_eq_true.
  - apply forallb_forall. intros [name c] He%list_elem_of_In.
    apply andb_true_iff. by apply Hall.
Qed.

(** *** No path is collected twice *)

Global Instance joinpath_inj top : Inj (=) (=) (joinpath top).
Proof. intros a b H. unfold joinpath in H. by simplify_list_eq. Qed.

Lemma sub_found_sound top es d p :
  p ∈ sub_found top es d → ∃ ds name, p = top ++ d :: ds ++ [name].
Proof.
  unfold sub_found. destruct (lookup_entry d es) as [child|];
    [|by intros ?%elem_of_nil].
  destruct (islink child); [by intros ?%elem_of_nil|].
  intros (ds & name & -> & _)%walk_sound. exists ds, name.
  unfold joinpath. by rewrite <-(assoc_L (++)).
Qed.

Lemma walk_NoDup n :
  wf_tree n = true → ∀ top, NoDup (walk find_ts_visit top n []).
Proof.
  induction n as [|l es IH] using node_ind'.
  - intros _ top. rewrite walk_File. constructor.
  - intros [Hnd Hwf]%wf_tree_Dir top. rewrite walk_Dir.
    apply NoDup_app. split_and!.
    + apply (NoDup_fmap_2 _), NoDup_filter, scan_nondirs_NoDup, Hnd.
    + intros p (name & -> & _)%list_elem_of_fmap
        (d & (ds & name' & Heq)%sub_found_sound & _)%list_elem_of_bind.
      unfold joinpath in Heq. simplify_list_eq. by destruct ds.
    + apply NoDup_bind.
      * intros d1 d2 p _ _ (ds1 & n1 & ->)%sub_found_sound
          (ds2 & n2 & Heq)%sub_found_sound.
        by simplify_list_eq.
      * intros d _. unfold sub_found.
        destruct (lookup_entry d es) as [child|] eqn:Hlook; [|constructor].
        destruct (islink child); [constructor|].
        apply lookup_entry_elem in Hlook. rewrite Forall_forall in IH.
        apply (IH _ Hlook). by apply (Hwf _ _ Hlook).
      * apply NoDup_filter, scan_dirs_NoDup, Hnd.
Qed.

(** *** Suffixes *)

Section StringFacts.
Implicit Types s t u : string.

Lemma string_app_nil_l s : "" +:+ s = s.
Proof. reflexivity. Qed.

Lemma string_app_cons c s t : String c s +:+ t = String c (s +:+ t).
Proof. reflexivity. Qed.

Lemma string_app_nil_r s : s +:+ "" = s.
Proof. induction s; rewrite ?string_app_cons; by f_equal. Qed.

Lemma string_app_assoc s t u : (s +:+ t) +:+ u = s +:+ (t +:+ u).
Proof. induction s; rewrite ?string_app_cons; by f_equal. Qed.

Lemma string_app_length s t :
  String.length (s +:+ t) = String.length s + String.length t.
Proof. induction s; rewrite ?string_app_cons; simpl; by f_equal. Qed.

Lemma substring_all s : substring 0 (String.length s) s = s.
Proof. induction s; simpl; by f_equal. Qed.

Lemma substring_skip s t m :
  substring (String.length s) m (s +:+ t) = substring 0 m t.
Proof.
  induction s; rewrite ?string_app_cons; simpl; [|done].
  rewrite string_app_nil_l. by destruct m, t.
Qed.

Lemma substring_split s k :
  (k ≤ String.length s)%nat →
  s = substring 0 k s +:+ substring k (String.length s - k) s.
Proof.
  revert k. induction s as [|c s IH]; intros [|k] Hk; simpl in *; try lia.
  - done.
  - rewrite string_app_nil_l. f_equal. by rewrite substring_all.
  - rewrite string_app_cons. f_equal. apply IH. lia.
Qed.

Lemma endswith_spec s suffix :
  endswith s suffix = true ↔ ∃ stem, s = stem +:+ suffix.
Proof.
  unfold endswith. rewrite andb_true_iff, Nat.leb_le, String.eqb_eq. split.
  - intros [Hle Hsub].
    exists (substring 0 (String.length s - String.length suffix) s).
    pose proof (substring_split s (String.length s - String.length suffix)) as H.
    replace (String.length s - (String.length s - String.length suffix))
      with (String.length suffix) in H by lia.
    rewrite Hsub in H. apply H. lia.
  - intros [stem ->]. rewrite string_app_length. split; [lia|].
    replace (String.length stem + String.length suffix - String.length suffix)
      with (String.length stem) by lia.
    by rewrite substring_skip, substring_all.
Qed.
End StringFacts.

Lemma endswith_any_ts name :
  endswith_any name [".ts"; ".tsx"] = true ↔ ts_name name.
Proof.
  unfold endswith_any, ts_name. simpl.
  rewrite !orb_true_iff, !endswith_spec. split.
  - intros [[stem ->]|[[stem ->]|?]]; [exists stem; by left|exists stem; by right|done].
  - intros [stem [->| ->]]; [left|right; left]; by exists stem.
Qed.

(** *** Visited files are files of the tree *)

Lemma visited_under n ds name : visited n ds name → under n ds name.
Proof. induction 1; econstructor; eauto. Qed.

(** *** Listing order *)

Lemma Forall2_elem_of_l {A B} (R : A → B → Prop) l k x :
  Forall2 R l k → x ∈ l → ∃ y, y ∈ k ∧ R x y.
Proof.
  induction 1 as [|a b l k Hab _ IH]; [by intros ?%elem_of_nil|].
  intros [->|Hx]%elem_of_cons.
  - exists b. split; [by left|done].
  - destruct (IH Hx) as (y & ? & ?). exists y. split; [by right|done].
Qed.

Lemma Forall2_elem_of_r {A B} (R : A → B → Prop) l k y :
  Forall2 R l k → y ∈ k → ∃ x, x ∈ l ∧ R x y.
Proof.
  induction 1 as [|a b l k Hab _ IH]; [by intros ?%elem_of_nil|].
  intros [->|Hy]%elem_of_cons.
  - exists a. split; [by left|done].
  - destruct (IH Hy) as (x & ? & ?). exists x. split; [by right|done].
Qed.

Lemma same_tree_refl n : same_tree n n.
Proof.
  induction n as [|l es IH] using node_ind'; [constructor|].
  apply same_Dir with es; [|done].
  induction IH; constructor; auto.
Qed.

Lemma same_tree_visited_l n1 ds name :
  visited n1 ds name → ∀ n2, same_tree n1 n2 → visited n2 ds name.
Proof.
  induction 1 as [l es1 name He|l es1 d es1' ds name He Hskip _ IH];
    intros n2 Hsame; inversion Hsame as [|? ? es2 es Hall Hperm]; subst.
  - destruct (Forall2_elem_of_l _ _ _ _ Hall He) as ([n c] & Hy & Hn & Hc).
    simpl in *. subst n. inversion Hc; subst.
    constructor. by rewrite <-Hperm.
  - destruct (Forall2_elem_of_l _ _ _ _ Hall He) as ([n c] & Hy & Hn & Hc).
    simpl in *. subst n. pose proof (IH _ Hc) as Hv.
    inversion Hc; subst. eapply visited_down; [|done|done].
    by rewrite <-Hperm.
Qed.

Lemma same_tree_visited_r n2 ds name :
  visited n2 ds name → ∀ n1, same_tree n1 n2 → visited n1 ds name.
Proof.
  induction 1 as [l es2 name He|l es2 d es2' ds name He Hskip _ IH];
    intros n1 Hsame; inversion Hsame as [|? es1 ? es Hall Hperm]; subst.
  - rewrite <-Hperm in He.
    destruct (Forall2_elem_of_r _ _ _ _ Hall He) as ([n c] & Hx & Hn & Hc).
    simpl in *. subst n. inversion Hc; subst. by constructor.
  - rewrite <-Hperm in He.
    destruct (Forall2_elem_of_r _ _ _ _ Hall He) as ([n c] & Hx & Hn & Hc).
    simpl in *. subst n. pose proof (IH _ Hc) as Hv.
    inversion Hc; subst. by eapply visited_down.
Qed.

Lemma same_tree_wf n1 : ∀ n2,
  same_tree n1 n2 → wf_tree n1 = true → wf_tree n2 = true.
Proof.
  induction n1 as [|l es1 IH] using node_ind'; intros n2 Hsame;
    inversion Hsame as [|? ? es2 es Hall Hperm]; subst; [done|].
  intros [Hnd Hwf]%wf_tree_Dir. apply wf_tree_Dir_intro.
  - rewrite <-Hperm. replace (es.*1) with (es1.*1); [done|].
    clear -Hall. induction Hall as [|[] [] ? ? [? _]]; simpl in *; by f_equal.
  - intros name c He. rewrite <-Hperm in He.
    destruct (Forall2_elem_of_r _ _ _ _ Hall He) as ([n c1] & Hx & Hn & Hc).
    simpl in *. subst n. split; [by apply (Hwf _ _ Hx)|].
    rewrite Forall_forall in IH. apply (IH _ Hx _ Hc). by apply (Hwf _ _ Hx).
Qed.

Lemma path_lt_lex p q : path_lt p q = true ↔ parts_lex p q.
Proof.
  split.
  - revert q. induction p as [|x p IH]; intros [|y q]; simpl; try done.
    + intros _. constructor.
    + destruct (String.eqb_spec x y) as [->|_].
      * intros ?. apply lex_tail. by apply IH.
      * intros ?. by apply lex_head.
  - induction 1 as [y q|x y p q Hxy|x p q _ IH]; simpl; [done| |].
    + destruct (String.eqb_spec x y) as [->|_]; [|done].
      by rewrite ltb_irrefl in Hxy.
    + by rewrite String.eqb_refl.
Qed.

Lemma visited_not_skipped n ds name :
  visited n ds name → ∀ d, d ∈ ds → d ∉ SKIP_DIRS.
Proof.
  induction 1 as [|l es d' es' ds name _ Hskip _ IH]; intros d.
  - by intros ?%elem_of_nil.
  - intros [->|Hd]%elem_of_cons; [done|by apply IH].
Qed.

Lemma below_root_inj (root ds ds' : Path) (name name' : string) :
  root ++ ds ++ [name] = root ++ ds' ++ [name'] → ds = ds' ∧ name = name'.
Proof.
  intros Heq%(inj (app root)). apply app_inj_2 in Heq as [? [= ?]]; done.
Qed.

(** What discovery returns, for a well-formed listing. *)
Lemma elem_of_find_ts_files root fs p :
  wf_tree fs = true →
  p ∈ find_ts_files root fs ↔
  ∃ ds name, p = root ++ ds ++ [name] ∧ visited fs ds name ∧ ts_name name.
Proof.
  intros Hwf. unfold find_ts_files. rewrite elem_of_sorted. split.
  - intros (ds & name & -> & Hv & Hts)%walk_sound.
    exists ds, name. by rewrite <-endswith_any_ts.
  - intros (ds & name & -> & Hv & Hts%endswith_any_ts). by apply walk_complete.
Qed.

Lemma find_ts_files_below_root root fs p :
  p ∈ find_ts_files root fs →
  ∃ ds name, p = root ++ ds ++ [name] ∧ visited fs ds name ∧ ts_name name.
Proof.
  unfold find_ts_files. rewrite elem_of_sorted.
  intros (ds & name & -> & Hv & Hts)%walk_sound.
  exists ds, name. by rewrite <-endswith_any_ts.
Qed.

Lemma find_ts_files_NoDup root fs :
  wf_tree fs = true → NoDup (find_ts_files root fs).
Proof. intros Hwf. by apply sorted_NoDup, walk_NoDup. Qed.

(** ** Combiner: what is written *)

Section CombinerFacts.
Variable read : Path → exn + string.
Variable root out : Path.

Lemma write_open o d chunks s :
  write out s (World o (<[out := chunks]> d))
  = (inr (), World o (<[out := chunks ++ [s]]> d)).
Proof.
  unfold write. simpl. by rewrite lookup_insert_eq, insert_insert_eq.
Qed.

Lemma for_each_file_chunks files : ∀ o d chunks,
  Forall (λ f, is_Some (relative_to f root)) files →
  for_each files (λ ts_file,
    relative_path ← relative_to_or_raise ts_file root;
    let separator := str_mul "=" 80 in
    write out (nl +:+ separator +:+ nl) ;;
    write out ("// FILE: " +:+ str relative_path +:+ nl) ;;
    write out (separator +:+ nl +:+ nl) ;;
    try_except
      (content ← read_text read ts_file;
       write out content ;;
       write out nl)
      (λ e, write out ("// ERROR reading file: " +:+ description e +:+ nl)))
    (World o (<[out := chunks]> d))
  = (inr (), World o (<[out := chunks ++ (files ≫= file_chunks read root)]> d)).
Proof.
  induction files as [|f files IH]; intros o d chunks Hrel.
  - simpl. by rewrite app_nil_r.
  - apply Forall_cons in Hrel as [[rel Hf] Hrel].
    change ((f :: files) ≫= file_chunks read root)
      with (file_chunks read root f ++ (files ≫= file_chunks read root)).
    assert (file_chunks read root f
            = [nl +:+ str_mul "=" 80 +:+ nl;
               "// FILE: " +:+ str rel +:+ nl;
               str_mul "=" 80 +:+ nl +:+ nl]
              ++ match read f with
                 | inr content => [content; nl]
                 | inl e => ["// ERROR reading file: " +:+ description e +:+ nl]
                 end) as ->
      by (unfold file_chunks; by rewrite Hf).
    cbn [for_each]. unfold mbind at 1, M_bind at 1.
    unfold relative_to_or_raise. rewrite Hf.
    unfold mbind, M_bind, mret, M_ret, try_except, read_text.
    rewrite !write_open.
    destruct (read f) as [e|content].
    + rewrite write_open, IH by done. by rewrite <-!(assoc_L (++)).
    + rewrite !write_open, IH by done. by rewrite <-!(assoc_L (++)).
Qed.

Lemma combine_files_run files w :
  Forall (λ f, is_Some (relative_to f root)) files →
  combine_files read files root out w
  = (inr (), World (stdout w) (<[out := files ≫= file_chunks read root]> (disk w))).
Proof.
  intros Hrel. unfold combine_files, mbind at 1, M_bind at 1, open_w.
  by rewrite for_each_file_chunks.
Qed.
End CombinerFacts.

(** ** Relative paths and their text *)

Lemma relative_to_app root rel : relative_to (root ++ rel) root = Some rel.
Proof.
  induction root as [|x root IH]; simpl; [by destruct rel|].
  by rewrite String.eqb_refl.
Qed.

Lemma relative_to_Some p root rel :
  relative_to p root = Some rel → p = root ++ rel.
Proof.
  revert p. induction root as [|y root IH]; intros p; simpl.
  - destruct p; by intros [= ->].
  - destruct p as [|x p]; simpl; [done|].
    destruct (String.eqb_spec x y) as [->|_]; [|done].
    intros ->%IH. done.
Qed.

Lemma find_ts_files_relative root fs f :
  f ∈ find_ts_files root fs →
  ∃ ds name, relative_to f root = Some (ds ++ [name])
             ∧ visited fs ds name ∧ ts_name name.
Proof.
  intros (ds & name & -> & Hv & Hts)%find_ts_files_below_root.
  exists ds, name. by rewrite relative_to_app.
Qed.

Lemma find_ts_files_all_relative root fs :
  Forall (λ f, is_Some (relative_to f root)) (find_ts_files root fs).
Proof.
  apply Forall_forall. intros f (ds & name & -> & _)%find_ts_files_relative.
  eauto.
Qed.

Lemma visited_valid n ds name :
  visited n ds name → wf_tree n = true →
  Forall (λ x, valid_name x = true) (ds ++ [name]).
Proof.
  induction 1 as [l es name He|l es d es' ds name He _ _ IH];
    intros [_ Hwf]%wf_tree_Dir; simpl.
  - repeat constructor. by apply (Hwf _ _ He).
  - constructor; [by apply (Hwf _ _ He)|]. apply IH. by apply (Hwf _ _ He).
Qed.

Section JoinFacts.
Implicit Types s t x y : string.

Lemma valid_name_inv x :
  valid_name x = true → x ≠ "" ∧ has_sep x = false.
Proof.
  unfold valid_name. rewrite andb_true_iff, !negb_true_iff, String.eqb_neq.
  done.
Qed.

Lemma has_sep_app x t : has_sep (x +:+ "/" +:+ t) = true.
Proof.
  induction x as [|c x IH]; [done|].
  rewrite string_app_cons. simpl. rewrite IH. by destruct (Ascii.eqb c "/").
Qed.

Lemma sep_split x y s t :
  has_sep x = false → has_sep y = false →
  x +:+ "/" +:+ s = y +:+ "/" +:+ t → x = y ∧ s = t.
Proof.
  revert y. induction x as [|c x IH]; intros [|c' y]; simpl;
    rewrite ?string_app_cons, ?string_app_nil_l.
  - intros _ _ [= ->]. done.
  - intros _ [Hc' _]%orb_false_iff [= <- _]. done.
  - intros [Hc _]%orb_false_iff _ [= -> _]. done.
  - intros [_ Hx]%orb_false_iff [_ Hy]%orb_false_iff [= -> Heq].
    destruct (IH _ Hx Hy Heq) as [-> ->]. done.
Qed.

Lemma join_nonempty p :
  p ≠ [] → Forall (λ x, valid_name x = true) p → join "/" p ≠ "".
Proof.
  destruct p as [|x p]; [done|]. intros _ [[Hx _]%valid_name_inv _]%Forall_cons.
  simpl. destruct p; [done|]. destruct x; [done|]. by rewrite string_app_cons.
Qed.

Lemma join_inj p q :
  Forall (λ x, valid_name x = true) p →
  Forall (λ x, valid_name x = true) q →
  join "/" p = join "/" q → p = q.
Proof.
  intros Hp. revert q.
  induction Hp as [|x p [Hx Hsx]%valid_name_inv Hp IH];
    intros q Hq; destruct Hq as [|y q [Hy Hsy]%valid_name_inv Hq].
  - done.
  - intros Heq. symmetry in Heq. apply join_nonempty in Heq; [done|done|].
    constructor; [|done]. unfold valid_name.
    rewrite Hsy, (proj2 (String.eqb_neq _ _) Hy). done.
  - intros Heq. apply join_nonempty in Heq; [done|done|].
    constructor; [|done]. unfold valid_name.
    rewrite Hsx, (proj2 (String.eqb_neq _ _) Hx). done.
  - simpl. destruct p as [|x' p], q as [|y' q].
    + by intros ->.
    + intros ->. by rewrite has_sep_app in Hsx.
    + intros <-. by rewrite has_sep_app in Hsy.
    + intros [-> Heq]%sep_split; [|done..]. f_equal. by apply IH.
Qed.

Lemma str_valid p :
  p ≠ [] → Forall (λ x, valid_name x = true) p → str p = join "/" p.
Proof.
  destruct p as [|x p]; [done|].
  intros _ [[_ Hx]%valid_name_inv _]%Forall_cons. unfold str.
  destruct (String.eqb_spec x "/") as [->|_]; done.
Qed.

(** The text of a relative path made of valid names does not begin with
    the separator. *)
Lemma str_no_leading_sep p :
  p ≠ [] → Forall (λ x, valid_name x = true) p → leading_sep (str p) = false.
Proof.
  intros Hne Hp. rewrite str_valid by done.
  destruct p as [|x p]; [done|].
  apply Forall_cons in Hp as [[Hx Hsx]%valid_name_inv _].
  destruct x as [|c x]; [done|]. simpl in Hsx.
  apply orb_false_iff in Hsx as [Hc _].
  simpl. destruct p; [done|]. by rewrite string_app_cons.
Qed.
End JoinFacts.

(** ** The chunks written and the blocks of the format *)

Section ConcatFacts.
Lemma concat_cons x xs : String.concat "" (x :: xs) = x +:+ String.concat "" xs.
Proof. destruct xs; simpl; [by rewrite string_app_nil_r|done]. Qed.

Lemma concat_app l k :
  String.concat "" (l ++ k) = String.concat "" l +:+ String.concat "" k.
Proof.
  induction l as [|x l IH]; [done|].
  rewrite <-app_comm_cons, !concat_cons, IH. by rewrite string_app_assoc.
Qed.

Lemma concat_bind {A} (g : A → list string) l :
  String.concat "" (l ≫= g)
  = String.concat "" ((λ x, String.concat "" (g x)) <$> l).
Proof.
  induction l as [|x l IH]; [done|].
  change ((x :: l) ≫= g) with (g x ++ (l ≫= g)).
  by rewrite fmap_cons, concat_app, concat_cons, IH.
Qed.

Lemma str_mul_80 : str_mul "=" 80 = line80.
Proof. reflexivity. Qed.

Lemma line80_length : String.length line80 = 80.
Proof. reflexivity. Qed.

Lemma concat_file_chunks read root f :
  String.concat "" (file_chunks read root f) = block_of read root f.
Proof.
  unfold file_chunks, block_of. destruct (relative_to f root) as [rel|]; [|done].
  rewrite str_mul_80. unfold block, body_of, error_line.
  destruct (read f) as [e|content]; cbn [app];
    rewrite !concat_cons; cbn [String.concat];
    by rewrite ?string_app_nil_r, !string_app_assoc.
Qed.

Lemma concat_chunks_blocks read root files :
  String.concat "" (files ≫= file_chunks read root)
  = String.concat "" (block_of read root <$> files).
Proof.
  rewrite concat_bind. f_equal. apply list_fmap_ext.
  intros _ f _. apply concat_file_chunks.
Qed.
End ConcatFacts.

Lemma combine_files_content read files root out w :
  Forall (λ f, is_Some (relative_to f root)) files →
  ∃ w', combine_files read files root out w = (inr (), w')
        ∧ stdout w' = stdout w
        ∧ file_content w' out
          = Some (String.concat "" (block_of read root <$> files)).
Proof.
  intros Hrel. eexists. split; [by apply combine_files_run|]. split; [done|].
  unfold file_content. simpl. rewrite lookup_insert_eq. simpl.
  by rewrite concat_chunks_blocks.
Qed.

(** * The claims about discovery *)

(** C1, as stated, fails: files below a directory that discovery does not
    enter are files under the root with a matching name, and are not
    returned.  Here [node_modules/x.ts] (pruned by name) and [lnk/y.ts]
    (behind a symbolic link, which [os.walk] does not follow). *)
Lemma find_ts_files_leaves_out_unvisited :
  wf_tree tree_pruned = true
  ∧ (under tree_pruned ["node_modules"] "x.ts" ∧ ts_name "x.ts"
   ∧ sample_root ++ ["node_modules"; "x.ts"] ∉ find_ts_files sample_root tree_pruned)
  ∧ (under tree_pruned ["lnk"] "y.ts" ∧ ts_name "y.ts"
     ∧ sample_root ++ ["lnk"; "y.ts"] ∉ find_ts_files sample_root tree_pruned).
Proof.
  assert (find_ts_files sample_root tree_pruned = [sample_root ++ ["a.ts"]]) as ->
    by (vm_compute; reflexivity).
  split; [reflexivity|]. split; split_and!.
  - apply (under_down _ _ _ (Dir false [("x.ts", File)])); [|apply under_here];
      rewrite !elem_of_cons; auto.
  - exists "x". by left.
  - by intros [=]%list_elem_of_singleton.
  - apply (under_down _ _ _ (Dir true [("y.ts", File)])); [|apply under_here];
      rewrite !elem_of_cons; auto.
  - exists "y". by left.
  - by intros [=]%list_elem_of_singleton.
Qed.

(** C1, amended: for a well-formed listing, discovery returns exactly the
    strictly increasing list (in the order of path components) of the paths
    [root/ds/name] where [name] ends in [.ts] or [.tsx] and is a
    non-directory entry reached from the root through directories [ds] that
    are neither named in the skip set nor symbolic links. *)
Theorem find_ts_files_exact root fs :
  wf_tree fs = true →
  StronglySorted (λ p q, path_lt p q = true) (find_ts_files root fs)
  ∧ ∀ p, p ∈ find_ts_files root fs ↔
         ∃ ds name, p = root ++ ds ++ [name] ∧ visited fs ds name ∧ ts_name name.
Proof.
  intros Hwf. split.
  - by apply sorted_strict, walk_NoDup.
  - intros p. by apply elem_of_find_ts_files.
Qed.

Lemma find_ts_files_exact_witness :
  wf_tree tree_scenario = true
  ∧ StronglySorted (λ p q, path_lt p q = true)
      (find_ts_files sample_root tree_scenario)
  ∧ ∀ p, p ∈ find_ts_files sample_root tree_scenario ↔
         ∃ ds name, p = sample_root ++ ds ++ [name]
                    ∧ visited tree_scenario ds name ∧ ts_name name.
Proof.
  split; [reflexivity|].
  apply (find_ts_files_exact sample_root tree_scenario). reflexivity.
Defined.

(** C2, as stated, fails for the root itself: [os.walk] never tests the name
    of the directory it is started on, so with a root called [dist] every
    returned path passes through a directory named in the skip set. *)
Lemma find_ts_files_keeps_skip_named_root :
  wf_tree tree_flat = true
  ∧ "dist" ∈ SKIP_DIRS
  ∧ find_ts_files ["/"; "dist"] tree_flat = [["/"; "dist"; "a.ts"]].
Proof. split_and!; [reflexivity|set_solver|]. vm_compute. reflexivity. Qed.

(** C2, amended: no path that, below the scan root, passes through a
    directory named in the skip set is returned, at any depth and whatever
    the file is called. *)
Theorem find_ts_files_prunes_below_root root fs ds name d :
  d ∈ ds → d ∈ SKIP_DIRS → root ++ ds ++ [name] ∉ find_ts_files root fs.
Proof.
  intros Hd Hskip (ds' & name' & Heq & Hv & _)%find_ts_files_below_root.
  apply below_root_inj in Heq as [-> ->].
  by apply (visited_not_skipped _ _ _ Hv d).
Qed.

Lemma find_ts_files_prunes_below_root_witness :
  sample_root ++ ["node_modules"; "x"] ++ ["y.ts"]
    ∉ find_ts_files sample_root tree_scenario.
Proof.
  apply (find_ts_files_prunes_below_root sample_root tree_scenario
           ["node_modules"; "x"] "y.ts" "node_modules").
  - rewrite elem_of_cons. by left.
  - unfold SKIP_DIRS. set_solver.
Defined.

(** C5, as stated, fails: [a-b/x.ts] follows [a/x.ts] in the returned list,
    while its full path string is the smaller one (["-"] sorts before the
    separator). *)
Lemma find_ts_files_not_sorted_by_str :
  wf_tree tree_dash = true
  ∧ find_ts_files sample_root tree_dash
  = [sample_root ++ ["a"; "x.ts"]; sample_root ++ ["a-b"; "x.ts"]]
  ∧ ¬ Sorted str_le (find_ts_files sample_root tree_dash).
Proof.
  assert (find_ts_files sample_root tree_dash
          = [sample_root ++ ["a"; "x.ts"]; sample_root ++ ["a-b"; "x.ts"]]) as ->
    by (vm_compute; reflexivity).
  split_and!; [reflexivity|done|]. intros Hs. apply Sorted_inv in Hs as [_ Hhd].
  apply HdRel_inv in Hhd. vm_compute in Hhd. done.
Qed.

(** C5, amended: the returned list is sorted lexicographically by the
    sequence of path components, which is how [Path] objects compare. *)
Theorem find_ts_files_sorted_by_parts root fs :
  StronglySorted (λ p q, p = q ∨ parts_lex p q) (find_ts_files root fs).
Proof.
  unfold find_ts_files.
  pose proof (sorted_StronglySorted (walk find_ts_visit root fs [])) as Hs.
  induction Hs as [|p l _ IH Hall]; constructor; [done|].
  eapply Forall_impl; [exact Hall|]. intros q Hle. simpl in Hle.
  destruct (decide (p = q)) as [|Hne]; [by left|right].
  by apply path_lt_lex, path_le_ne_lt.
Qed.

(** C9: discovery returns the same list, in the same order, for any two
    listings of one file system, whatever the order in which the entries of
    each directory are reported. *)
Theorem find_ts_files_deterministic root fs1 fs2 :
  wf_tree fs1 = true → same_tree fs1 fs2 →
  find_ts_files root fs1 = find_ts_files root fs2.
Proof.
  intros Hwf1 Hsame. pose proof (same_tree_wf _ _ Hsame Hwf1) as Hwf2.
  apply sorted_order_irrelevant, NoDup_Permutation; [by apply walk_NoDup..|].
  intros p. split.
  - intros (ds & name & -> & Hv & Hts)%walk_sound. apply walk_complete; [|done..].
    by eapply same_tree_visited_l.
  - intros (ds & name & -> & Hv & Hts)%walk_sound. apply walk_complete; [|done..].
    by eapply same_tree_visited_r.
Qed.

Lemma find_ts_files_deterministic_witness :
  find_ts_files sample_root tree_scenario
  = find_ts_files sample_root tree_scenario_reordered.
Proof.
  apply (find_ts_files_deterministic sample_root
           tree_scenario tree_scenario_reordered); [reflexivity|].
  apply (same_Dir false _ _
           [("src", Dir false [("app.ts", File); ("util.tsx", File)]);
            ("node_modules", Dir false [("x", Dir false [("y.ts", File)])]);
            ("dist", Dir false [("out.ts", File)])]).
  - constructor.
    { split; [reflexivity|].
      apply (same_Dir false _ _ [("util.tsx", File); ("app.ts", File)]).
      - repeat constructor.
      - apply Permutation_swap. }
    constructor. { split; [reflexivity|apply same_tree_refl]. }
    constructor. { split; [reflexivity|apply same_tree_refl]. }
    constructor.
  - etrans; [apply perm_skip, Permutation_swap|apply Permutation_swap].
Defined.

(** * The claims about the combiner *)

Lemma bind_ext_in {A B} (f g : A → list B) l :
  (∀ x, x ∈ l → f x = g x) → l ≫= f = l ≫= g.
Proof.
  induction l as [|x l IH]; intros Hfg; [done|].
  change ((x :: l) ≫= f) with (f x ++ (l ≫= f)).
  change ((x :: l) ≫= g) with (g x ++ (l ≫= g)).
  rewrite Hfg by left. rewrite IH; [done|]. intros y Hy. apply Hfg. by right.
Qed.

Lemma headers_NoDup root fs :
  wf_tree fs = true →
  NoDup ((λ f, str <$> relative_to f root) <$> find_ts_files root fs).
Proof.
  intros Hwf. apply NoDup_fmap_2_strong; [|by apply find_ts_files_NoDup].
  intros f g (ds & name & -> & Hv & _)%find_ts_files_below_root
    (ds' & name' & -> & Hv' & _)%find_ts_files_below_root.
  rewrite !relative_to_app. simpl. intros [= Heq].
  pose proof (visited_valid _ _ _ Hv Hwf) as Hval.
  pose proof (visited_valid _ _ _ Hv' Hwf) as Hval'.
  rewrite (str_valid (ds ++ [name])) in Heq by (done || by destruct ds).
  rewrite (str_valid (ds' ++ [name'])) in Heq by (done || by destruct ds').
  by rewrite (join_inj _ _ Hval Hval' Heq).
Qed.

(** C3, as stated, fails: the block of a file that cannot be read ends with
    the error line, not with the content of the file. *)
Lemma combine_files_unreadable_block :
  wf_tree tree_flat = true
  ∧ find_ts_files sample_root tree_flat = [sample_root ++ ["a.ts"]]
  ∧ file_content
      (combine_files read_denied (find_ts_files sample_root tree_flat)
         sample_root sample_out (World [] ∅)).2 sample_out
    = Some (block "a.ts"
              ("// ERROR reading file: [Errno 13] Permission denied: '/r/a.ts'"
               +:+ nl))
  ∧ ¬ ∃ content,
        read_denied (sample_root ++ ["a.ts"]) = inr content
        ∧ file_content
            (combine_files read_denied (find_ts_files sample_root tree_flat)
               sample_root sample_out (World [] ∅)).2 sample_out
          = Some (block "a.ts" (content +:+ nl)).
Proof.
  split_and!.
  - reflexivity.
  - vm_compute. reflexivity.
  - vm_compute. reflexivity.
  - intros (content & [=] & _).
Qed.

(** C3, amended: for a well-formed listing with N discovered files, the
    combiner writes exactly N blocks, one per file in the sorted order of
    discovery, each with its own root-relative path in the header, each being
    a newline, a line of 80 [=], the line [// FILE: <relative path>], a
    second line of 80 [=], a blank line, and then the content of the file and
    a newline when the file could be read, the error line otherwise; the
    blocks are concatenated with nothing between them. *)
Theorem combine_files_blocks read root fs out w :
  wf_tree fs = true →
  ∃ w',
    combine_files read (find_ts_files root fs) root out w = (inr (), w')
    ∧ file_content w' out
      = Some (String.concat "" (block_of read root <$> find_ts_files root fs))
    ∧ length (block_of read root <$> find_ts_files root fs)
      = length (find_ts_files root fs)
    ∧ NoDup ((λ f, str <$> relative_to f root) <$> find_ts_files root fs)
    ∧ StronglySorted (λ p q, path_lt p q = true) (find_ts_files root fs)
    ∧ ∀ f, f ∈ find_ts_files root fs →
        ∃ rel, relative_to f root = Some rel ∧ f = root ++ rel
          ∧ block_of read root f
            = block (str rel)
                (match read f with
                 | inr content => content +:+ nl
                 | inl e => error_line e
                 end).
Proof.
  intros Hwf.
  destruct (combine_files_content read _ root out w
              (find_ts_files_all_relative root fs)) as (w' & Hrun & _ & Hout).
  exists w'. split_and!; [done|done| | | |].
  - by rewrite length_fmap.
  - by apply headers_NoDup.
  - by apply sorted_strict, walk_NoDup.
  - intros f (ds & name & Hrel & _)%find_ts_files_relative.
    exists (ds ++ [name]). split_and!; [done|by apply relative_to_Some|].
    unfold block_of. by rewrite Hrel.
Qed.

Lemma combine_files_blocks_witness :
  ∃ w',
    combine_files read_mixed (find_ts_files sample_root tree_scenario)
      sample_root sample_out (World [] ∅) = (inr (), w')
    ∧ file_content w' sample_out
      = Some (String.concat ""
                (block_of read_mixed sample_root
                   <$> find_ts_files sample_root tree_scenario))
    ∧ length (block_of read_mixed sample_root
                <$> find_ts_files sample_root tree_scenario)
      = length (find_ts_files sample_root tree_scenario)
    ∧ NoDup ((λ f, str <$> relative_to f sample_root)
               <$> find_ts_files sample_root tree_scenario)
    ∧ StronglySorted (λ p q, path_lt p q = true)
        (find_ts_files sample_root tree_scenario)
    ∧ ∀ f, f ∈ find_ts_files sample_root tree_scenario →
        ∃ rel, relative_to f sample_root = Some rel ∧ f = sample_root ++ rel
          ∧ block_of read_mixed sample_root f
            = block (str rel)
                (match read_mixed f with
                 | inr content => content +:+ nl
                 | inl e => error_line e
                 end).
Proof.
  apply (combine_files_blocks read_mixed sample_root tree_scenario
           sample_out (World [] ∅)).
  reflexivity.
Defined.

(** C4: when the read of a discovered file fails, the combiner still
    completes; the block of that file carries the error line with the
    description of the failure where the content would be, and the blocks of
    the files before and after it are all in the output. *)
Theorem combine_files_survives_read_failure read root fs out w f e :
  f ∈ find_ts_files root fs → read f = inl e →
  ∃ w' l1 l2 rel,
    combine_files read (find_ts_files root fs) root out w = (inr (), w')
    ∧ find_ts_files root fs = l1 ++ f :: l2
    ∧ relative_to f root = Some rel
    ∧ file_content w' out
      = Some (String.concat "" (block_of read root <$> l1)
              +:+ block (str rel)
                    ("// ERROR reading file: " +:+ description e +:+ nl)
              +:+ String.concat "" (block_of read root <$> l2)).
Proof.
  intros Hf Hread.
  destruct (combine_files_content read _ root out w
              (find_ts_files_all_relative root fs)) as (w' & Hrun & _ & Hout).
  destruct (find_ts_files_relative _ _ _ Hf) as (ds & name & Hrel & _).
  destruct (list_elem_of_split _ _ Hf) as (l1 & l2 & Hsplit).
  exists w', l1, l2, (ds ++ [name]). split_and!; [done..|].
  rewrite Hout, Hsplit, fmap_app, fmap_cons, concat_app, concat_cons.
  unfold block_of at 2. by rewrite Hrel, Hread.
Qed.

Lemma combine_files_survives_read_failure_witness :
  ∃ w' l1 l2 rel,
    combine_files read_mixed (find_ts_files sample_root tree_scenario)
      sample_root sample_out (World [] ∅) = (inr (), w')
    ∧ find_ts_files sample_root tree_scenario
      = l1 ++ (sample_root ++ ["src"; "app.ts"]) :: l2
    ∧ relative_to (sample_root ++ ["src"; "app.ts"]) sample_root = Some rel
    ∧ file_content w' sample_out
      = Some (String.concat "" (block_of read_mixed sample_root <$> l1)
              +:+ block (str rel)
                    ("// ERROR reading file: " +:+ description undecodable
                     +:+ nl)
              +:+ String.concat "" (block_of read_mixed sample_root <$> l2)).
Proof.
  apply (combine_files_survives_read_failure read_mixed sample_root
           tree_scenario sample_out (World [] ∅)
           (sample_root ++ ["src"; "app.ts"])).
  - apply list_elem_of_In. vm_compute. by left.
  - reflexivity.
Defined.

(** C8: for every discovered file the path relative to the scan root
    exists, so the combiner runs over a discovered list without raising; the
    relative path is what the combiner writes in the header line of the
    file's block, it is not empty and, for a well-formed listing, its text
    does not begin with the separator. *)
Theorem combine_files_relative_paths read root fs out w :
  wf_tree fs = true →
  ∃ w' (rel : Path → Path),
    combine_files read (find_ts_files root fs) root out w = (inr (), w')
    ∧ (∀ f, f ∈ find_ts_files root fs →
         relative_to f root = Some (rel f) ∧ f = root ++ rel f
         ∧ rel f ≠ [] ∧ leading_sep (str (rel f)) = false)
    ∧ disk w' !! out
      = Some (find_ts_files root fs ≫= λ f,
                [nl +:+ line80 +:+ nl;
                 "// FILE: " +:+ str (rel f) +:+ nl;
                 line80 +:+ nl +:+ nl]
                ++ match read f with
                   | inr content => [content; nl]
                   | inl e => [error_line e]
                   end).
Proof.
  intros Hwf.
  exists (World (stdout w)
            (<[out := find_ts_files root fs ≫= file_chunks read root]> (disk w))),
    (λ f, default [] (relative_to f root)).
  split_and!.
  - apply combine_files_run, find_ts_files_all_relative.
  - intros f (ds & name & Hrel & Hv & _)%find_ts_files_relative.
    rewrite Hrel. simpl.
    assert (ds ++ [name] ≠ []) by (by destruct ds).
    split_and!; [done|by apply relative_to_Some|done|].
    apply str_no_leading_sep; [done|]. by apply (visited_valid fs).
  - simpl. rewrite lookup_insert_eq. f_equal. apply bind_ext_in.
    intros f (ds & name & Hrel & _)%find_ts_files_relative.
    unfold file_chunks. rewrite Hrel, str_mul_80. simpl.
    by destruct (read f).
Qed.

Lemma combine_files_relative_paths_witness :
  ∃ w' (rel : Path → Path),
    combine_files read_ok (find_ts_files sample_root tree_scenario)
      sample_root sample_out sample_world = (inr (), w')
    ∧ (∀ f, f ∈ find_ts_files sample_root tree_scenario →
         relative_to f sample_root = Some (rel f) ∧ f = sample_root ++ rel f
         ∧ rel f ≠ [] ∧ leading_sep (str (rel f)) = false)
    ∧ disk w' !! sample_out
      = Some (find_ts_files sample_root tree_scenario ≫= λ f,
                [nl +:+ line80 +:+ nl;
                 "// FILE: " +:+ str (rel f) +:+ nl;
                 line80 +:+ nl +:+ nl]
                ++ match read_ok f with
                   | inr content => [content; nl]
                   | inl e => [error_line e]
                   end).
Proof.
  apply (combine_files_relative_paths read_ok sample_root tree_scenario
           sample_out sample_world).
  reflexivity.
Defined.

(** C10: after the header of a block the combiner writes either the whole
    text that the read returned and then a newline, or the error line alone
    when the read raised; nothing of a file is written before its read has
    returned. *)
Theorem combine_files_all_or_nothing read root fs out w :
  ∃ w' body,
    combine_files read (find_ts_files root fs) root out w = (inr (), w')
    ∧ disk w' !! out
      = Some (find_ts_files root fs ≫= λ f, header_chunks root f ++ body f)
    ∧ ∀ f, (∃ content, read f = inr content ∧ body f = [content; nl])
           ∨ (∃ e, read f = inl e ∧ body f = [error_line e]).
Proof.
  exists (World (stdout w)
            (<[out := find_ts_files root fs ≫= file_chunks read root]> (disk w))),
    (λ f, match read f with
          | inr content => [content; nl]
          | inl e => [error_line e]
          end).
  split_and!.
  - apply combine_files_run, find_ts_files_all_relative.
  - simpl. rewrite lookup_insert_eq. f_equal. apply bind_ext_in.
    intros f (ds & name & Hrel & _)%find_ts_files_relative.
    unfold file_chunks, header_chunks. rewrite Hrel, str_mul_80.
    by destruct (read f).
  - intros f. destruct (read f) as [e|content]; [right|left]; eauto.
Qed.

(** * The claims about the entry point *)

Section MainFacts.
Variable read : Path → exn + string.
Variable resolve from_cwd : string → Path.
Variable at_path : Path → option node.

Lemma main_run_no_files args w fs :
  at_path (resolve (path args)) = Some fs →
  find_ts_files (resolve (path args)) fs = [] →
  main read resolve from_cwd at_path args w
  = (inr 0%Z,
     World (stdout w
            ++ ["Searching for TypeScript files in: "
                +:+ str (resolve (path args));
                "No TypeScript files found"])
           (disk w)).
Proof.
  intros Hat Hnone. unfold main. rewrite Hat, Hnone.
  unfold mbind, M_bind, mret, M_ret, print. simpl.
  by rewrite <-(assoc_L (++)).
Qed.

Lemma main_run_missing_root args w :
  at_path (resolve (path args)) = None →
  main read resolve from_cwd at_path args w
  = (inr 1%Z,
     World (stdout w
            ++ ["Error: Path '" +:+ str (resolve (path args))
                +:+ "' does not exist"])
           (disk w)).
Proof. intros Hat. unfold main. by rewrite Hat. Qed.
End MainFacts.

(** C6: when discovery finds no matching file, no file is created or
    written (the disk is left as it was), the run reports that no file was
    found, and the exit status is 0. *)
Theorem main_no_files read resolve from_cwd at_path args w fs :
  at_path (resolve (path args)) = Some fs →
  find_ts_files (resolve (path args)) fs = [] →
  ∃ w',
    exit_status read resolve from_cwd at_path args w = (0%Z, w')
    ∧ disk w' = disk w
    ∧ stdout w'
      = stdout w ++ ["Searching for TypeScript files in: "
                     +:+ str (resolve (path args));
                     "No TypeScript files found"].
Proof.
  intros Hat Hnone. eexists. unfold exit_status.
  rewrite (main_run_no_files _ _ _ _ _ _ _ Hat Hnone). done.
Qed.

Lemma main_no_files_witness :
  ∃ w',
    exit_status read_ok sample_resolve sample_from_cwd (λ _, Some tree_no_ts)
      sample_args sample_world = (0%Z, w')
    ∧ disk w' = disk sample_world
    ∧ stdout w'
      = stdout sample_world
        ++ ["Searching for TypeScript files in: "
            +:+ str (sample_resolve (path sample_args));
            "No TypeScript files found"].
Proof.
  apply (main_no_files read_ok sample_resolve sample_from_cwd
           (λ _, Some tree_no_ts) sample_args sample_world tree_no_ts).
  - reflexivity.
  - vm_compute. reflexivity.
Defined.

(** C7: when the resolved root path does not exist, the entry point prints
    an error message, the exit status is 1, and nothing is written: no file
    is opened, discovery and the combiner are not run. *)
Theorem main_missing_root read resolve from_cwd at_path args w :
  at_path (resolve (path args)) = None →
  ∃ w',
    main read resolve from_cwd at_path args w = (inr 1%Z, w')
    ∧ exit_status read resolve from_cwd at_path args w = (1%Z, w')
    ∧ disk w' = disk w
    ∧ stdout w'
      = stdout w ++ ["Error: Path '" +:+ str (resolve (path args))
                     +:+ "' does not exist"].
Proof.
  intros Hat. eexists. unfold exit_status.
  rewrite (main_run_missing_root _ _ _ _ _ _ Hat). done.
Qed.

Lemma main_missing_root_witness :
  ∃ w',
    main read_ok sample_resolve sample_from_cwd (λ _, None) sample_args
      sample_world = (inr 1%Z, w')
    ∧ exit_status read_ok sample_resolve sample_from_cwd (λ _, None)
        sample_args sample_world = (1%Z, w')
    ∧ disk w' = disk sample_world
    ∧ stdout w'
      = stdout sample_world
        ++ ["Error: Path '" +:+ str (sample_resolve (path sample_args))
            +:+ "' does not exist"].
Proof.
  apply (main_missing_root read_ok sample_resolve sample_from_cwd
           (λ _, None) sample_args sample_world).
  reflexivity.
Defined.

(** * Further properties of the combiner *)









(** * Further properties of the entry point *)

Section MainRun.
Variable read : Path → exn + string.
Variable resolve from_cwd : string → Path.
Variable at_path : Path → option node.

Lemma main_run_combines args w fs :
  at_path (resolve (path args)) = Some fs →
  find_ts_files (resolve (path args)) fs ≠ [] →
  main read resolve from_cwd at_path args w
  = (inr 0%Z,
     World (stdout w
            ++ ["Searching for TypeScript files in: "
                +:+ str (resolve (path args));
                "Found "
                +:+ pretty (length (find_ts_files (resolve (path args)) fs))
                +:+ " TypeScript files";
                "Combined into: " +:+ str (from_cwd (output args))])
           (<[from_cwd (output args)
              := find_ts_files (resolve (path args)) fs
                 ≫= file_chunks read (resolve (path args))]> (disk w))).
Proof.
  intros Hat Hsome. unfold main. rewrite Hat.
  pose proof (find_ts_files_all_relative (resolve (path args)) fs) as Hrel.
  destruct (find_ts_files (resolve (path args)) fs) as [|f files]; [done|].
  unfold mbind at 1, M_bind at 1, print at 1.
  unfold mbind at 1, M_bind at 1, print at 1.
  unfold mbind at 1, M_bind at 1. rewrite combine_files_run by done.
  unfold mbind, M_bind, print, mret, M_ret. cbn [stdout disk].
  by rewrite <-!(assoc_L (++)).
Qed.

(** the three ways in which [main] ends *)
Lemma main_run_cases args w :
  (at_path (resolve (path args)) = None
   ∧ main read resolve from_cwd at_path args w
     = (inr 1%Z,
        World (stdout w
               ++ ["Error: Path '" +:+ str (resolve (path args))
                   +:+ "' does not exist"])
              (disk w)))
  ∨ (∃ fs, at_path (resolve (path args)) = Some fs
           ∧ find_ts_files (resolve (path args)) fs = []
           ∧ main read resolve from_cwd at_path args w
             = (inr 0%Z,
                World (stdout w
                       ++ ["Searching for TypeScript files in: "
                           +:+ str (resolve (path args));
                           "No TypeScript files found"])
                      (disk w)))
  ∨ (∃ fs, at_path (resolve (path args)) = Some fs
           ∧ find_ts_files (resolve (path args)) fs ≠ []
           ∧ main read resolve from_cwd at_path args w
             = (inr 0%Z,
                World (stdout w
                       ++ ["Searching for TypeScript files in: "
                           +:+ str (resolve (path args));
                           "Found "
                           +:+ pretty (length (find_ts_files
                                                 (resolve (path args)) fs))
                           +:+ " TypeScript files";
                           "Combined into: " +:+ str (from_cwd (output args))])
                      (<[from_cwd (output args)
                         := find_ts_files (resolve (path args)) fs
                            ≫= file_chunks read (resolve (path args))]>
                         (disk w)))).
Proof.
  destruct (at_path (resolve (path args))) as [fs|] eqn:Hat.
  - destruct (decide (find_ts_files (resolve (path args)) fs = [])) as [He|Hne].
    + right. left. exists fs. split_and!; [done..|].
      by apply main_run_no_files with fs.
    + right. right. exists fs. split_and!; [done..|].
      by apply main_run_combines.
  - left. split; [done|]. by apply main_run_missing_root.
Qed.
End MainRun.





(** What [main] prints and the status it returns do not depend on the
    outcome of any read: a file that cannot be read shows in the combined
    file only. *)
Theorem main_silent_about_reads read1 read2 resolve from_cwd at_path args w :
  (main read1 resolve from_cwd at_path args w).1
  = (main read2 resolve from_cwd at_path args w).1
  ∧ stdout (main read1 resolve from_cwd at_path args w).2
    = stdout (main read2 resolve from_cwd at_path args w).2.
Proof.
  destruct (main_run_cases read1 resolve from_cwd at_path args w)
    as [[Hat ->]|[(fs & Hat & Hfs & ->)|(fs & Hat & Hfs & ->)]].
  - by rewrite main_run_missing_root.
  - by rewrite (main_run_no_files _ _ _ _ _ _ _ Hat Hfs).
  - by rewrite (main_run_combines _ _ _ _ _ _ _ Hat Hfs).
Qed.

(** A root that exists and is not a directory is not an error: [os.walk]
    yields nothing for it, and [main] reports that no file was found, with
    status 0 and no file written. *)
Theorem main_on_a_file read resolve from_cwd at_path args w :
  at_path (resolve (path args)) = Some File →
  main read resolve from_cwd at_path args w
  = (inr 0%Z,
     World (stdout w
            ++ ["Searching for TypeScript files in: "
                +:+ str (resolve (path args));
                "No TypeScript files found"])
           (disk w)).
Proof. intros Hat. by apply main_run_no_files with File. Qed.

Lemma main_on_a_file_witness :
  main read_ok sample_resolve sample_from_cwd (λ _, Some File) sample_args
    sample_world
  = (inr 0%Z,
     World (stdout sample_world
            ++ ["Searching for TypeScript files in: "
                +:+ str (sample_resolve (path sample_args));
                "No TypeScript files found"])
           (disk sample_world)).
Proof.
  apply (main_on_a_file read_ok sample_resolve sample_from_cwd
           (λ _, Some File) sample_args sample_world).
  reflexivity.
Defined.

(** * Further properties of discovery *)

Lemma scan_same_kinds (R : node → node → Prop) es es' :
  Forall2 (visible_entry R) es es' →
  scan_dirs es = scan_dirs es' ∧ scan_nondirs es = scan_nondirs es'.
Proof.
  unfold scan_dirs, scan_nondirs.
  induction 1 as [|[n c] [n' c'] es es' (Hn & Hd & _) _ [IHd IHn]]; [done|].
  simpl in Hn, Hd. subst n'. rewrite !filter_cons. simpl. rewrite <-Hd.
  destruct (is_dir c); simpl; split;
    first [exact IHd | exact IHn | f_equal; first [exact IHd | exact IHn]].
Qed.

Lemma sub_found_same_visible top d es es' :
  d ∉ SKIP_DIRS →
  Forall (λ e, ∀ fs' top, same_visible e.2 fs' →
    walk find_ts_visit top e.2 [] = walk find_ts_visit top fs' []) es →
  Forall2 (visible_entry same_visible) es es' →
  sub_found top es d = sub_found top es' d.
Proof.
  intros Hd IH Hall. unfold sub_found.
  induction Hall as [|[n c] [n' c'] es es' (Hn & _ & Hl & Hsub) _ IHall];
    [done|].
  apply Forall_cons in IH as [IHc IH]. simpl in *. subst n'.
  destruct (String.eqb_spec n d) as [->|_]; [|by apply IHall].
  rewrite <-Hl. destruct (islink c) eqn:Hlink; [done|].
  apply IHc. by apply Hsub.
Qed.

Lemma walk_same_visible fs : ∀ fs' top,
  same_visible fs fs' →
  walk find_ts_visit top fs [] = walk find_ts_visit top fs' [].
Proof.
  induction fs as [|l es IH] using node_ind'; intros fs' top Hsv;
    inversion Hsv as [|? l' ? es' Hall]; subst; [done|].
  rewrite !walk_Dir. unfold pruned.
  destruct (scan_same_kinds _ _ _ Hall) as [<- <-]. f_equal.
  apply bind_ext_in. intros d [Hd _]%list_elem_of_filter.
  by apply sub_found_same_visible.
Qed.

(** Discovery never looks below a directory it does not enter: two trees
    that differ only below directories named in the skip set or below
    symbolic links to directories, at any depth, give the same list. *)
Theorem find_ts_files_ignores_unvisited root fs fs' :
  same_visible fs fs' → find_ts_files root fs = find_ts_files root fs'.
Proof.
  intros Hsv. unfold find_ts_files. by rewrite (walk_same_visible fs fs').
Qed.

Lemma find_ts_files_ignores_unvisited_witness :
  find_ts_files sample_root tree_scenario
  = find_ts_files sample_root tree_scenario_rebuilt.
Proof.
  apply (find_ts_files_ignores_unvisited sample_root tree_scenario
           tree_scenario_rebuilt).
  apply visible_Dir. constructor; [|constructor; [|constructor; [|constructor]]].
  - split_and!; [done..|]. intros _ _. apply visible_Dir.
    repeat (constructor; [split_and!; [done..|]; intros _ _; constructor|]).
    constructor.
  - split_and!; [done..|]. intros Hskip. destruct Hskip.
    unfold SKIP_DIRS. set_solver.
  - split_and!; [done..|]. intros Hskip. destruct Hskip.
    unfold SKIP_DIRS. set_solver.
Defined.

Lemma path_lt_prefix_cancel root p q :
  path_lt (root ++ p) (root ++ q) = path_lt p q.
Proof.
  induction root as [|x root IH]; [done|]. simpl. by rewrite String.eqb_refl.
Qed.

Lemma sorted_prefix root l :
  sorted ((root ++.) <$> l) = (root ++.) <$> sorted l.
Proof.
  symmetry. apply sorted_unique.
  - by rewrite sorted_Permutation.
  - apply (Sorted_fmap _ path_le path_le).
    + intros p q. unfold path_le. by rewrite path_lt_prefix_cancel.
    + apply Sorted_merge_sort, _.
Qed.

Lemma fmap_bind_list {A B C} (f : B → C) (g : A → list B) (l : list A) :
  f <$> (l ≫= g) = l ≫= (λ x, f <$> g x).
Proof.
  induction l as [|x l IH]; [done|].
  change ((x :: l) ≫= g) with (g x ++ (l ≫= g)).
  change ((x :: l) ≫= (λ x, f <$> g x))
    with ((f <$> g x) ++ (l ≫= (λ x, f <$> g x))).
  by rewrite fmap_app, IH.
Qed.

Lemma walk_prefix root fs : ∀ top,
  walk find_ts_visit (root ++ top) fs []
  = (root ++.) <$> walk find_ts_visit top fs [].
Proof.
  induction fs as [|l es IH] using node_ind'; intros top; [done|].
  rewrite !walk_Dir, fmap_app, fmap_bind_list. f_equal.
  - rewrite <-list_fmap_compose. apply list_fmap_ext. intros _ name _.
    unfold joinpath. simpl. by rewrite (assoc_L (++)).
  - apply bind_ext_in. intros d _. unfold sub_found.
    destruct (lookup_entry d es) as [child|] eqn:Hlook; [|done].
    destruct (islink child); [done|].
    apply lookup_entry_elem in Hlook. rewrite Forall_forall in IH.
    rewrite <-(IH _ Hlook). unfold joinpath. by rewrite (assoc_L (++)).
Qed.

(** Discovery does not depend on where the tree sits: the list found from
    the root [root/top] is the list found from [top] with [root] put before
    every path, in the same order.  With [top] empty (the path [.]): the
    list for any root is the list of the relative paths, prefixed. *)
Theorem find_ts_files_translates root top fs :
  find_ts_files (root ++ top) fs = (root ++.) <$> find_ts_files top fs.
Proof.
  unfold find_ts_files. by rewrite walk_prefix, sorted_prefix.
Qed.

(** * Discovery and combiner together *)

(** The combined file does not depend on where the scanned tree sits: a run
    from the root and a run from the path [.] (no parts) write the same
    file, provided that the read of every discovered file has the same
    outcome in both.  (The text of an error raised by a read names the path
    as it was opened, so a file that cannot be read falls outside this.) *)
Theorem combined_file_independent_of_root read read' root fs out w :
  (∀ rel, rel ∈ find_ts_files [] fs → read (root ++ rel) = read' rel) →
  combine_files read (find_ts_files root fs) root out w
  = (inr (), (combine_files read (find_ts_files root fs) root out w).2)
  ∧ combine_files read' (find_ts_files [] fs) [] out w
    = (inr (), (combine_files read' (find_ts_files [] fs) [] out w).2)
  ∧ file_content (combine_files read (find_ts_files root fs) root out w).2 out
    = file_content (combine_files read' (find_ts_files [] fs) [] out w).2 out.
Proof.
  intros Hread.
  rewrite !combine_files_run by apply find_ts_files_all_relative.
  split_and!; [done..|].
  unfold file_content. simpl. rewrite !lookup_insert_eq. simpl.
  rewrite !concat_chunks_blocks. do 2 f_equal.
  replace (find_ts_files root fs) with ((root ++.) <$> find_ts_files [] fs).
  - rewrite <-list_fmap_compose. apply list_fmap_ext. intros i rel Hin. simpl.
    unfold block_of. rewrite relative_to_app.
    pose proof (relative_to_app [] rel) as Hrel. simpl in Hrel.
    rewrite Hrel, Hread; [done|]. by eapply list_elem_of_lookup_2.
  - unfold find_ts_files.
    rewrite <-sorted_prefix, <-walk_prefix. by rewrite app_nil_r.
Qed.

Lemma combined_file_independent_of_root_witness :
  combine_files read_ok (find_ts_files sample_root tree_scenario) sample_root
    sample_out sample_world
  = (inr (),
     (combine_files read_ok (find_ts_files sample_root tree_scenario)
        sample_root sample_out sample_world).2)
  ∧ combine_files read_ok (find_ts_files [] tree_scenario) [] sample_out
      sample_world
    = (inr (),
       (combine_files read_ok (find_ts_files [] tree_scenario) [] sample_out
          sample_world).2)
  ∧ file_content
      (combine_files read_ok (find_ts_files sample_root tree_scenario)
         sample_root sample_out sample_world).2 sample_out
    = file_content
        (combine_files read_ok (find_ts_files [] tree_scenario) [] sample_out
           sample_world).2 sample_out.
Proof.
  apply (combined_file_independent_of_root read_ok read_ok sample_root
           tree_scenario sample_out sample_world).
  reflexivity.
Defined.
